(** * gcloud-opentracing: the span recorder for Cloud Trace

    A shallow embedding of the Go package [gcloudtracer] (errors.go,
    logger.go, the options file and recorder.go) together with the
    properties its design document states about it.

    Go maps are [gmap]s; a loop over a Go map is a fold over one listing of
    its entries, and every listing (every permutation of [map_to_list]) is a
    possible iteration order.  Calls to the collaborators (the bundler, the
    Cloud Trace client, the logger) are recorded in a history of events that
    is threaded through a small state monad. *)

From stdpp Require Import gmap strings list fin_maps pretty.
From Stdlib Require Import ZArith Lia Ascii.

Local Open Scope Z_scope.

(** ** Go values and errors *)

(** The dynamic values a tag or a log field can hold ([interface{}]).  The
    type switch of [convertTags] tells [int] and [string] apart from
    everything else; [convertSpanKind] compares against constants of the
    named string type [ext.SpanKindEnum].  Every other dynamic type
    (float64, int64, uint16, structs, ...) is kept by the text [fmt.Sprint]
    prints for it. *)
Inductive Value :=
  | VInt (n : Z)
  | VString (s : string)
  | VBool (b : bool)
  | VSpanKindEnum (s : string)
  | VOther (printed : string).

#[global] Instance Value_eq_dec : EqDecision Value.
Proof. solve_decision. Defined.

(** Go's [error] values that reach this package. *)
Inductive error :=
  | ErrInvalidProjectID
  | ErrOverflow
  | ErrOversizedItem
  | errorString (msg : string).

#[global] Instance error_eq_dec : EqDecision error.
Proof. solve_decision. Defined.

Definition Error (e : error) : string :=
  match e with
  | ErrInvalidProjectID => "invalid project id"
  | ErrOverflow => "bundler reached buffered byte limit"
  | ErrOversizedItem => "item size exceeds bundle byte limit"
  | errorString msg => msg
  end.

Inductive result (A : Type) :=
  | Ok (a : A)
  | Err (e : error).
Arguments Ok {A} a.
Arguments Err {A} e.

(** ** The formatting routines of [strconv] and [fmt] that the recorder calls *)

Module strconv.
(** [strconv.Itoa]: base-10 text, with a leading minus sign below zero. *)
Definition Itoa (n : Z) : string := pretty n.
End strconv.

Module fmt.
Definition digits : string := "0123456789abcdef".

Definition digit (d : Z) : Ascii.ascii :=
  match String.get (Z.to_nat d) digits with
  | Some c => c
  | None => "0"%char
  end.

(** The digit loop of the integer formatter for verb [x]: the low digit
    is written first, at the right end, while the value is 16 or more. *)
Fixpoint fmt_x_loop (fuel : nat) (u : Z) (acc : string) : string :=
  match fuel with
  | O => acc
  | S fuel' =>
      if 16 <=? u
      then fmt_x_loop fuel' (u / 16) (String (digit (u mod 16)) acc)
      else String (digit u) acc
  end.

(** A [uint64] has at most 16 hexadecimal digits. *)
Definition fmt_x (u : Z) : string := fmt_x_loop 16 u "".

Fixpoint zeros (n : nat) : string :=
  match n with
  | O => ""
  | S n' => String "0"%char (zeros n')
  end.

(** Flag [0] with a width: pad on the left with zeros up to the width. *)
Definition pad_zero (width : nat) (s : string) : string :=
  zeros (width - String.length s) +:+ s.

(** Verb [%016x] applied to a [uint64]. *)
Definition Sprintf_016x (u : Z) : string := pad_zero 16 (fmt_x u).

(** Verb [%d] applied to a loop index. *)
Definition Sprintf_d (i : nat) : string := pretty i.

(** [fmt.Sprint] of one value. *)
Definition Sprint (v : Value) : string :=
  match v with
  | VInt n => pretty n
  | VString s => s
  | VBool true => "true"
  | VBool false => "false"
  | VSpanKindEnum s => s
  | VOther printed => printed
  end.

(** Reading a lowercase hexadecimal numeral back, for the statements: the
    value of a character is its position among [digits]. *)
Fixpoint position (c : Ascii.ascii) (s : string) (i : Z) : option Z :=
  match s with
  | String c' s' => if decide (c = c') then Some i else position c s' (i + 1)
  | _ => None
  end.

Definition hex_val (c : Ascii.ascii) : option Z := position c digits 0.

Fixpoint parse_hex_from (acc : Z) (s : string) : option Z :=
  match s with
  | "" => Some acc
  | String c s' =>
      match hex_val c with
      | Some d => parse_hex_from (16 * acc + d) s'
      | None => None
      end
  end.

Definition parse_hex (s : string) : option Z := parse_hex_from 0 s.
End fmt.

(** ** The well-known tag names of [opentracing-go/ext] *)

Module ext.
Definition PeerHostname : string := "peer.hostname".
Definition HTTPMethod : string := "http.method".
Definition HTTPStatusCode : string := "http.status_code".
Definition HTTPUrl : string := "http.url".
Definition SpanKind : string := "span.kind".
Definition SpanKindRPCServerEnum : Value := VSpanKindEnum "server".
Definition SpanKindRPCClientEnum : Value := VSpanKindEnum "client".
End ext.

(** ** Tags and labels *)

(** The entries of the [labelMap] literal. *)
Definition labelMap_entries : list (string * string) :=
  [ (ext.PeerHostname, "trace.cloud.google.com/http/host");
    (ext.HTTPMethod, "trace.cloud.google.com/http/method");
    (ext.HTTPStatusCode, "trace.cloud.google.com/http/status_code");
    (ext.HTTPUrl, "trace.cloud.google.com/http/url") ].

Definition labelMap : gmap string string := list_to_map labelMap_entries.

(** One iteration of the loop of [convertTags]. *)
Definition convertTags_step (labels : gmap string string) (kv : string * Value)
    : gmap string string :=
  match kv.2 with
  | VInt n => <[kv.1 := strconv.Itoa n]> labels
  | VString s => <[kv.1 := s]> labels
  | _ => labels
  end.

(** [convertTags] when the map is visited in the order [visit]. *)
Definition convertTags_in (visit : list (string * Value)) : gmap string string :=
  foldl convertTags_step ∅ visit.

Definition convertTags (tags : gmap string Value) : gmap string string :=
  convertTags_in (map_to_list tags).

Definition convertSpanKind (tags : gmap string Value) : string :=
  match tags !! ext.SpanKind with
  | Some v =>
      if decide (v = ext.SpanKindRPCServerEnum) then "RPC_SERVER"
      else if decide (v = ext.SpanKindRPCClientEnum) then "RPC_CLIENT"
      else "SPAN_KIND_UNSPECIFIED"
  | None => "SPAN_KIND_UNSPECIFIED"
  end.

(** One iteration of the loop of [transposeLabels]. *)
Definition transposeLabels_step (labels : gmap string string) (kt : string * string)
    : gmap string string :=
  match labels !! kt.1 with
  | Some vv => delete kt.1 (<[kt.2 := vv]> labels)
  | None => labels
  end.

(** [transposeLabels] when the table is visited in the order [visit]. *)
Definition transposeLabels_in (visit : list (string * string))
    (labels : gmap string string) : gmap string string :=
  foldl transposeLabels_step labels visit.

Definition transposeLabels (labels : gmap string string) : gmap string string :=
  transposeLabels_in (map_to_list labelMap) labels.

(** ** Spans as the tracer hands them over *)

(** The part of Go's [time] package that the recorder calls.  The clock
    type and its renderings are a collaborator of this package. *)
Class TimePkg := {
  time_Time : Type;
  time_Duration : Type;
  time_String : time_Time → string;
  time_Format_RFC3339Nano : time_Time → string;
  time_Add : time_Time → time_Duration → time_Time;
}.

(** [log.Field]: a key and a value. *)
Record Field := { Key : string; FieldValue : Value }.

Section Spans.
Context `{TimePkg}.

(** [opentracing.LogRecord] *)
Record LogRecord := { Timestamp : time_Time; Fields : list Field }.

(** [basictracer.SpanContext]; the identifiers are [uint64]. *)
Record SpanContext := {
  TraceID : Z;
  SpanID : Z;
  Sampled : bool;
}.

(** [basictracer.RawSpan] *)
Record RawSpan := {
  Context : SpanContext;
  ParentSpanID : Z;
  Operation : string;
  Start : time_Time;
  Duration : time_Duration;
  Tags : gmap string Value;
  Logs : list LogRecord;
}.

(** The inner loop of [addLogs]: the fields of one log record are
    appended to the buffer; [n] is [len(l.Fields)] and [j] the index of
    the field at the head of the list. *)
Fixpoint writeFields (n j : nat) (fields : list Field) (buf : string) : string :=
  match fields with
  | [] => buf
  | f :: fields' =>
      let buf1 := buf +:+ Key f +:+ "=" +:+ fmt.Sprint (FieldValue f) in
      let buf2 := if decide (j ≠ (n + 1)%nat) then buf1 +:+ " " else buf1 in
      writeFields n (S j) fields' buf2
  end.

(** The label value that [addLogs] builds for one log record. *)
Definition logValue (l : LogRecord) : string :=
  writeFields (length (Fields l)) 0 (Fields l) (time_String (Timestamp l)).

Definition eventKey (i : nat) : string := "event_" +:+ fmt.Sprintf_d i.

(** The outer loop of [addLogs], from index [i] on. *)
Fixpoint addLogs_from (i : nat) (target : gmap string string)
    (logs : list LogRecord) : gmap string string :=
  match logs with
  | [] => target
  | l :: logs' => addLogs_from (S i) (<[eventKey i := logValue l]> target) logs'
  end.

Definition addLogs (target : gmap string string) (logs : list LogRecord)
    : gmap string string :=
  addLogs_from 0 target logs.

(** The value the design document describes for one log record: the
    timestamp's text followed by the fields as [key=value], the fields
    separated by single spaces. *)
Definition fieldText (f : Field) : string :=
  Key f +:+ "=" +:+ fmt.Sprint (FieldValue f).

Fixpoint joinSpace (parts : list string) : string :=
  match parts with
  | [] => ""
  | [p] => p
  | p :: rest => p +:+ " " +:+ joinSpace rest
  end.

Definition logValue_spec (l : LogRecord) : string :=
  time_String (Timestamp l) +:+ joinSpace (fieldText <$> Fields l).

(** ** The records sent to Cloud Trace *)

(** [cloudtrace.TraceSpan] *)
Record TraceSpan := {
  ts_SpanId : Z;
  ts_Kind : string;
  ts_Name : string;
  ts_StartTime : string;
  ts_EndTime : string;
  ts_ParentSpanId : Z;
  ts_Labels : gmap string string;
}.

(** [cloudtrace.Trace] *)
Record Trace := {
  ProjectId : string;
  TraceId : string;
  Spans : list TraceSpan;
}.

(** ** Options *)

(** A [Logger] is known by the name of its implementation. *)
Inductive Logger :=
  | defaultLogger
  | customLogger (name : string).

Record JWTCredentials := {
  Email : string;
  PrivateKey : string;
  PrivateKeyID : string;
}.

Record Options := {
  opt_log : option Logger;
  projectID : string;
  credentials : JWTCredentials;
}.

(** The zero value of [Options] ([var options Options]). *)
Definition zeroOptions : Options :=
  {| opt_log := None;
     projectID := "";
     credentials := {| Email := ""; PrivateKey := ""; PrivateKeyID := "" |} |}.

Definition Valid (o : Options) : option error :=
  if decide (projectID o = "") then Some ErrInvalidProjectID else None.

Definition Option := Options → Options.

Definition WithProject (pid : string) : Option :=
  λ o, {| opt_log := opt_log o; projectID := pid; credentials := credentials o |}.

Definition WithLogger (logger : Logger) : Option :=
  λ o, {| opt_log := Some logger; projectID := projectID o;
          credentials := credentials o |}.

Definition WithJWTCredentials (creds : JWTCredentials) : Option :=
  λ o, {| opt_log := opt_log o; projectID := projectID o; credentials := creds |}.

(** ** The recorder and its collaborators *)

(** [jwt.Config] as [NewRecorder] fills it in. *)
Record JWTConfig := {
  conf_Email : string;
  conf_PrivateKey : string;
  conf_PrivateKeyID : string;
  conf_Scopes : list string;
  conf_TokenURL : string;
}.

Definition JWTTokenURL : string := "https://accounts.google.com/o/oauth2/token".

(** [cloudtrace.Service]: the client, known by the configuration it was
    built from. *)
Record Service := { svc_conf : JWTConfig }.

(** The thresholds of the [bundler.Bundler]; the delay is in nanoseconds. *)
Record Bundler := {
  DelayThreshold : Z;
  BundleCountThreshold : Z;
  BundleByteThreshold : Z;
  BundleByteLimit : Z;
  BufferedByteLimit : Z;
}.

(** An opaque [context.Context]. *)
Inductive GoContext := ctxHandle (id : nat).

Record Recorder := {
  project : string;
  ctx : GoContext;
  log : Logger;
  traceClient : Service;
  bundler : Bundler;
}.

(** What the recorder does to the outside world, in the order it does it. *)
Inductive Event :=
  | EvAdd (b : Bundler) (item : Trace) (size : Z)
  | EvErrorf (l : Logger) (line : string)
  | EvPatchTraces (c : Service) (proj : string) (traces : list Trace).

(** How the collaborators answer.  An answer may depend on everything
    that happened before the call. *)
Record Collaborators := {
  cloudtrace_New : JWTConfig → result Service;
  bundler_Add : list Event → Trace → Z → option error;
  PatchTraces_Do : list Event → string → list Trace → option error;
}.

Variable world : Collaborators.

(** Computations that extend the history of events. *)
Definition M (A : Type) : Type := list Event → A * list Event.

Definition ret {A} (a : A) : M A := λ h, (a, h).
Definition bind {A B} (c : M A) (k : A → M B) : M B :=
  λ h, let '(a, h') := c h in k a h'.

Notation "x <- c ;; k" := (bind c (λ x, k))
  (at level 100, c at next level, right associativity).
Notation "c ;;; k" := (bind c (λ _, k))
  (at level 100, right associativity).

Definition Errorf (l : Logger) (line : string) : M unit :=
  λ h, (tt, h ++ [EvErrorf l line]).

Definition Add (b : Bundler) (item : Trace) (size : Z) : M (option error) :=
  λ h, (bundler_Add world h item size, h ++ [EvAdd b item size]).

Definition upload (r : Recorder) (traces : list Trace) : M (option error) :=
  λ h, (PatchTraces_Do world h (project r) traces,
        h ++ [EvPatchTraces (traceClient r) (project r) traces]).

(** The callback [NewRecorder] hands to the bundler. *)
Definition bundleHandler (rec : Recorder) (traces : list Trace) : M unit :=
  err <- upload rec traces ;;
  match err with
  | Some e =>
      Errorf (log rec)
        ("failed to upload " +:+ pretty (length traces)
         +:+ " traces to the Cloud Trace server. (err = " +:+ Error e +:+ ")")
  | None => ret tt
  end.

(** The loop [for _, o := range opts { o(&options) }]. *)
Definition applyOptions (opts : list Option) : Options :=
  foldl (λ o f, f o) zeroOptions opts.

(** The [jwt.Config] literal of [NewRecorder]. *)
Definition jwtConfig (options : Options) : JWTConfig :=
  {| conf_Email := Email (credentials options);
     conf_PrivateKey := PrivateKey (credentials options);
     conf_PrivateKeyID := PrivateKeyID (credentials options);
     conf_Scopes :=
       [ "https://www.googleapis.com/auth/trace.append";
         "https://www.googleapis.com/auth/trace.readonly";
         "https://www.googleapis.com/auth/cloud-platform" ];
     conf_TokenURL := JWTTokenURL |}.

(** The bundler as [NewRecorder] sets it up: a delay of two seconds and
    weights that count traces and spans, not bytes. *)
Definition newBundler : Bundler :=
  {| DelayThreshold := 2 * 1000000000;
     BundleCountThreshold := 100;
     BundleByteThreshold := 1000;
     BundleByteLimit := 1000;
     BufferedByteLimit := 10000 |}.

Definition NewRecorder (c : GoContext) (opts : list Option) : result Recorder :=
  let options := applyOptions opts in
  match Valid options with
  | Some err => Err err
  | None =>
      let logger := match opt_log options with
                    | Some l => l
                    | None => defaultLogger
                    end in
      match cloudtrace_New world (jwtConfig options) with
      | Err err => Err err
      | Ok client =>
          Ok {| project := projectID options;
                ctx := c;
                log := logger;
                traceClient := client;
                bundler := newBundler |}
      end
  end.

(** The record [RecordSpan] builds for a sampled span. *)
Definition traceOf (r : Recorder) (sp : RawSpan) : Trace :=
  let traceID := fmt.Sprintf_016x (TraceID (Context sp))
                 +:+ fmt.Sprintf_016x (TraceID (Context sp)) in
  let labels := addLogs (transposeLabels (convertTags (Tags sp))) (Logs sp) in
  {| ProjectId := project r;
     TraceId := traceID;
     Spans :=
       [ {| ts_SpanId := SpanID (Context sp);
            ts_Kind := convertSpanKind (Tags sp);
            ts_Name := Operation sp;
            ts_StartTime := time_Format_RFC3339Nano (Start sp);
            ts_EndTime := time_Format_RFC3339Nano (time_Add (Start sp) (Duration sp));
            ts_ParentSpanId := ParentSpanID sp;
            ts_Labels := labels |} ] |}.

Definition RecordSpan (r : Recorder) (sp : RawSpan) : M unit :=
  if negb (Sampled (Context sp)) then ret tt
  else
    let trace := traceOf r sp in
    err <- Add (bundler r) trace 2 ;;
    if decide (err = Some ErrOverflow) then
      Errorf (log r) "trace upload bundle too full. uploading immediately" ;;;
      err' <- upload r [trace] ;;
      match err' with
      | Some e => Errorf (log r) ("error uploading trace: " +:+ Error e)
      | None => ret tt
      end
    else ret tt.

End Spans.

(** * Definitions used by the statements *)

(** Strings made of the digits [0-9a-f] only. *)
Fixpoint hex_string (s : string) : bool :=
  match s with
  | "" => true
  | String c s' => bool_decide (is_Some (fmt.hex_val c)) && hex_string s'
  end.

(** What the type switch of [convertTags] keeps of one value. *)
Definition converted (v : Value) : option string :=
  match v with
  | VInt n => Some (strconv.Itoa n)
  | VString s => Some s
  | _ => None
  end.

(** A rewrite table is well formed when no name occurs twice among its
    tag names and its label names taken together. *)
Definition disjoint_table (tbl : list (string * string)) : Prop :=
  NoDup (tbl.*1 ++ tbl.*2).

(** What the inner loop of [addLogs] really appends: every field is
    followed by a space, the last one too. *)
Fixpoint fieldsText (fields : list Field) : string :=
  match fields with
  | [] => ""
  | f :: fields' => fieldText f +:+ " " +:+ fieldsText fields'
  end.

(** ** Sample inputs *)

(** A stand-in clock: instants and durations are nanosecond counts, printed
    as decimal numbers. *)
Definition counterClock : TimePkg :=
  {| time_Time := Z;
     time_Duration := Z;
     time_String := λ t, pretty t;
     time_Format_RFC3339Nano := λ t, pretty t;
     time_Add := Z.add |}.

(** Collaborators that always succeed. *)
Definition quietWorld : Collaborators :=
  {| cloudtrace_New := λ conf, Ok {| svc_conf := conf |};
     bundler_Add := λ _ _ _, None;
     PatchTraces_Do := λ _ _ _, None |}.

(** A bundler whose buffer is full and a collector that is unreachable. *)
Definition fullWorld : Collaborators :=
  {| cloudtrace_New := λ conf, Ok {| svc_conf := conf |};
     bundler_Add := λ _ _ _, Some ErrOverflow;
     PatchTraces_Do := λ _ _ _, Some (errorString "unavailable") |}.

(** A bundler that refuses every item as oversized. *)
Definition oversizedWorld : Collaborators :=
  {| cloudtrace_New := λ conf, Ok {| svc_conf := conf |};
     bundler_Add := λ _ _ _, Some ErrOversizedItem;
     PatchTraces_Do := λ _ _ _, None |}.

Definition sampleRecorder : Recorder :=
  {| project := "my-project";
     ctx := ctxHandle 0;
     log := defaultLogger;
     traceClient :=
       {| svc_conf := {| conf_Email := "svc@example.com";
                         conf_PrivateKey := "key";
                         conf_PrivateKeyID := "key-id";
                         conf_Scopes := [];
                         conf_TokenURL := JWTTokenURL |} |};
     bundler := newBundler |}.

Definition sampleLog : LogRecord (H := counterClock) :=
  {| Timestamp := 5 : @time_Time counterClock;
     Fields := [ {| Key := "k"; FieldValue := VString "v" |} ] |}.

(** A span with a tag named like a log label, and one log record. *)
Definition sampleSpan (sampled : bool) : RawSpan (H := counterClock) :=
  {| Context := {| TraceID := 255; SpanID := 7; Sampled := sampled |};
     ParentSpanID := 0;
     Operation := "GET /";
     Start := 1000 : @time_Time counterClock;
     Duration := 10 : @time_Duration counterClock;
     Tags := {[ "event_0" := VString "from-tag" ]};
     Logs := [ sampleLog ] |}.

Definition hostTags : gmap string Value :=
  {[ "peer.hostname" := VString "a"; "custom" := VString "b" ]}.

Definition mixedTags : gmap string Value :=
  {[ "name" := VString "x"; "count" := VInt 42; "ratio" := VOther "1.5";
     "http.status_code" := VOther "200" ]}.

Definition sampleTrace : Trace := traceOf (H := counterClock) sampleRecorder (sampleSpan true).

(** Options that name a project and give no credentials. *)
Definition projectOnly : list Option := [ WithProject "my-project" ].

(** Options that give credentials and no project. *)
Definition credentialsOnly : list Option :=
  [ WithJWTCredentials {| Email := "svc@example.com"; PrivateKey := "key";
                          PrivateKeyID := "key-id" |} ].

(** ** Further definitions for the statements *)

(** The labels [RecordSpan] puts on the record of a span. *)
Definition recordLabels `{TimePkg} (sp : RawSpan) : gmap string string :=
  addLogs (transposeLabels (convertTags (Tags sp))) (Logs sp).

(** The calls to the Cloud Trace collector among some events. *)
Definition isPatchTraces (e : Event) : bool :=
  match e with
  | EvPatchTraces _ _ _ => true
  | _ => false
  end.

(** The options that leave the project identifier empty. *)
Definition leavesProjectEmpty (o : Option) : Prop :=
  (∃ l, o = WithLogger l) ∨ (∃ c, o = WithJWTCredentials c) ∨ o = WithProject "".

(** A span context with the given trace identifier. *)
Definition spanWithTrace (id : Z) : RawSpan (H := counterClock) :=
  {| Context := {| TraceID := id; SpanID := 1; Sampled := true |};
     ParentSpanID := 0;
     Operation := "op";
     Start := 0 : @time_Time counterClock;
     Duration := 1 : @time_Duration counterClock;
     Tags := ∅;
     Logs := [] |}.

(** A server span for an HTTP request, with a status code set as an [int],
    a tag of another type, and two log records, the second without fields. *)
Definition httpSpan : RawSpan (H := counterClock) :=
  {| Context := {| TraceID := 1; SpanID := 2; Sampled := true |};
     ParentSpanID := 0;
     Operation := "GET /users";
     Start := 0 : @time_Time counterClock;
     Duration := 1 : @time_Duration counterClock;
     Tags := {[ "span.kind" := ext.SpanKindRPCServerEnum;
                "http.method" := VString "GET";
                "http.status_code" := VInt 200;
                "sampling.priority" := VOther "1";
                "component" := VString "api" ]};
     Logs := [ {| Timestamp := 7 : @time_Time counterClock;
                  Fields := [ {| Key := "a"; FieldValue := VInt 1 |};
                              {| Key := "b"; FieldValue := VBool true |} ] |};
               {| Timestamp := 8 : @time_Time counterClock; Fields := [] |} ] |}.

(** A collector that is unreachable behind a bundler that accepts. *)
Definition downWorld : Collaborators :=
  {| cloudtrace_New := λ conf, Ok {| svc_conf := conf |};
     bundler_Add := λ _ _ _, None;
     PatchTraces_Do := λ _ _ _, Some (errorString "unavailable") |}.

(** A client constructor that fails. *)
Definition noClientWorld : Collaborators :=
  {| cloudtrace_New := λ _, Err (errorString "no client");
     bundler_Add := λ _ _ _, None;
     PatchTraces_Do := λ _ _ _, None |}.

(** A label set that already uses a Cloud Trace name. *)
Definition nativeLabels : gmap string string :=
  {[ "trace.cloud.google.com/http/host" := "native"; "custom" := "b" ]}.

(** Options with a logger, credentials and an empty project. *)
Definition noProjectOptions : list Option :=
  [ WithLogger (customLogger "audit");
    WithJWTCredentials {| Email := "svc@example.com"; PrivateKey := "key";
                          PrivateKeyID := "key-id" |};
    WithProject "" ].

(** * Properties *)

(** ** Strings *)

Lemma string_app_nil_l (s : string) : "" +:+ s = s.
Proof. reflexivity. Qed.

Lemma string_app_cons (c : ascii) (s t : string) :
  String c s +:+ t = String c (s +:+ t).
Proof. reflexivity. Qed.

Lemma string_app_nil_r (s : string) : s +:+ "" = s.
Proof. induction s as [|c s IH]; [done|]. by rewrite string_app_cons, IH. Qed.

Lemma string_app_assoc (s t u : string) : (s +:+ t) +:+ u = s +:+ (t +:+ u).
Proof.
  induction s as [|c s IH]; [done|].
  by rewrite !string_app_cons, IH.
Qed.

Lemma string_app_length (s t : string) :
  String.length (s +:+ t) = (String.length s + String.length t)%nat.
Proof.
  induction s as [|c s IH]; [done|].
  rewrite string_app_cons. simpl. by rewrite IH.
Qed.

(** ** Hexadecimal rendering *)

Lemma hex_val_digit (d : Z) : 0 ≤ d < 16 → fmt.hex_val (fmt.digit d) = Some d.
Proof.
  intros Hd.
  assert (Hcases : d = 0 ∨ d = 1 ∨ d = 2 ∨ d = 3 ∨ d = 4 ∨ d = 5 ∨ d = 6 ∨ d = 7
                   ∨ d = 8 ∨ d = 9 ∨ d = 10 ∨ d = 11 ∨ d = 12 ∨ d = 13 ∨ d = 14
                   ∨ d = 15) by lia.
  repeat (destruct Hcases as [->|Hcases]; [reflexivity|]).
  by subst.
Qed.

Lemma parse_hex_from_hex_string (s : string) (a v : Z) :
  fmt.parse_hex_from a s = Some v → hex_string s = true.
Proof.
  revert a. induction s as [|c s IH]; intros a Hp; [done|].
  simpl in *. destruct (fmt.hex_val c) as [d|] eqn:Hc; [|done].
  rewrite (IH _ Hp), andb_true_r. apply bool_decide_eq_true. eauto.
Qed.

Lemma hex_string_app (s t : string) :
  hex_string s = true → hex_string t = true → hex_string (s +:+ t) = true.
Proof.
  intros Hs Ht. induction s as [|c s IH]; [done|].
  simpl in Hs. apply andb_true_iff in Hs as [Hc Hs].
  rewrite string_app_cons. simpl. by rewrite Hc, IH.
Qed.

(** What the digit loop writes in front of the accumulator: between one
    and [fuel] digits which read back as [u]. *)
Lemma fmt_x_loop_spec (fuel : nat) :
  ∀ (u : Z) (acc : string),
    (1 ≤ fuel)%nat →
    0 ≤ u < 16 ^ Z.of_nat fuel →
    ∃ s, fmt.fmt_x_loop fuel u acc = s +:+ acc
         ∧ (1 ≤ String.length s ≤ fuel)%nat
         ∧ ∀ (a : Z) (rest : string),
             fmt.parse_hex_from a (s +:+ rest)
             = fmt.parse_hex_from (a * 16 ^ Z.of_nat (String.length s) + u) rest.
Proof.
  induction fuel as [|fuel IH]; intros u acc Hfuel Hu; [lia|].
  simpl. destruct (16 <=? u) eqn:Hge.
  - apply Z.leb_le in Hge.
    assert (Hq : 0 ≤ u / 16 < 16 ^ Z.of_nat fuel).
    { split; [apply Z.div_pos; lia|].
      apply Z.div_lt_upper_bound; [lia|].
      replace (Z.of_nat (S fuel)) with (Z.of_nat fuel + 1) in Hu by lia.
      rewrite Z.pow_add_r in Hu by lia. lia. }
    assert (Hfuel' : (1 ≤ fuel)%nat).
    { destruct fuel; [|lia]. simpl in Hq. assert (1 ≤ u / 16); [|lia].
      apply Z.div_le_lower_bound; lia. }
    destruct (IH (u / 16) (String (fmt.digit (u mod 16)) acc) Hfuel' Hq)
      as (s & Hs & Hlen & Hparse).
    exists (s +:+ String (fmt.digit (u mod 16)) "").
    split; [|split].
    + by rewrite Hs, string_app_assoc.
    + rewrite string_app_length. simpl. lia.
    + intros a rest.
      rewrite string_app_assoc, string_app_cons, string_app_nil_l, Hparse.
      simpl. rewrite hex_val_digit by (apply Z.mod_pos_bound; lia).
      f_equal. rewrite string_app_length. simpl.
      replace (Z.of_nat (String.length s + 1)) with (Z.of_nat (String.length s) + 1)
        by lia.
      rewrite Z.pow_add_r by lia.
      pose proof (Z.div_mod u 16). lia.
  - apply Z.leb_gt in Hge.
    exists (String (fmt.digit u) "").
    split; [done|]. split; [simpl; lia|].
    intros a rest. rewrite string_app_cons, string_app_nil_l. simpl.
    rewrite hex_val_digit by lia. f_equal. lia.
Qed.

Lemma zeros_length (n : nat) : String.length (fmt.zeros n) = n.
Proof. induction n as [|n IH]; [done|]. simpl. by rewrite IH. Qed.

Lemma parse_hex_zeros (n : nat) (s : string) :
  fmt.parse_hex_from 0 (fmt.zeros n +:+ s) = fmt.parse_hex_from 0 s.
Proof.
  induction n as [|n IH]; [done|].
  change (fmt.zeros (S n)) with (String "0"%char (fmt.zeros n)).
  rewrite string_app_cons. simpl. apply IH.
Qed.

(** [%016x] of a [uint64]: sixteen lowercase hexadecimal digits that read
    back as the number. *)
Lemma Sprintf_016x_spec (u : Z) :
  0 ≤ u < 2 ^ 64 →
  String.length (fmt.Sprintf_016x u) = 16%nat
  ∧ fmt.parse_hex (fmt.Sprintf_016x u) = Some u
  ∧ hex_string (fmt.Sprintf_016x u) = true.
Proof.
  intros Hu.
  destruct (fmt_x_loop_spec 16 u "") as (s & Hs & Hlen & Hparse); [lia| |].
  { change (16 ^ Z.of_nat 16) with (2 ^ 64). lia. }
  assert (Hval : fmt.parse_hex (fmt.Sprintf_016x u) = Some u).
  { unfold fmt.parse_hex, fmt.Sprintf_016x, fmt.pad_zero.
    rewrite parse_hex_zeros. unfold fmt.fmt_x. rewrite Hs.
    rewrite Hparse. simpl. f_equal; lia. }
  split; [|split; [done|]].
  - unfold fmt.Sprintf_016x, fmt.pad_zero, fmt.fmt_x.
    rewrite Hs, string_app_nil_r, string_app_length, zeros_length. lia.
  - by eapply parse_hex_from_hex_string.
Qed.

(** ** Tag conversion *)

Lemma convertTags_step_lookup (labels : gmap string string) (kv : string * Value)
    (k : string) :
  convertTags_step labels kv !! k
  = if decide (k = kv.1) then from_option Some (labels !! k) (converted kv.2)
    else labels !! k.
Proof.
  unfold convertTags_step. destruct kv as [k' v]; simpl.
  destruct (decide (k = k')) as [->|Hne].
  - destruct v; simpl; by rewrite ?lookup_insert_eq.
  - destruct v; simpl; by rewrite ?lookup_insert_ne.
Qed.

Lemma foldl_convertTags_step_lookup (visit : list (string * Value)) :
  NoDup visit.*1 →
  ∀ (labels : gmap string string) (k : string),
    foldl convertTags_step labels visit !! k
    = from_option Some (labels !! k)
        ((list_to_map visit : gmap string Value) !! k ≫= converted).
Proof.
  induction visit as [|[k' v] visit IH]; intros Hnd labels k; simpl.
  { by rewrite lookup_empty. }
  apply NoDup_cons in Hnd as [Hk' Hnd].
  rewrite (IH Hnd), convertTags_step_lookup. simpl.
  destruct (decide (k = k')) as [->|Hne].
  - rewrite lookup_insert_eq.
    rewrite (not_elem_of_list_to_map_1 (M := gmap string)) by done. done.
  - by rewrite lookup_insert_ne.
Qed.

(** Whatever order the tags are visited in, the converted value of a key
    depends on that key's tag alone. *)
Lemma convertTags_in_lookup (tags : gmap string Value)
    (visit : list (string * Value)) (k : string) :
  visit ≡ₚ map_to_list tags →
  convertTags_in visit !! k = tags !! k ≫= converted.
Proof.
  intros Hperm.
  assert (Hnd : NoDup visit.*1).
  { rewrite Hperm. apply NoDup_fst_map_to_list. }
  unfold convertTags_in. rewrite foldl_convertTags_step_lookup by done.
  rewrite lookup_empty.
  rewrite (list_to_map_proper visit (map_to_list tags)) by done.
  rewrite list_to_map_to_list.
  by destruct (tags !! k ≫= converted).
Qed.

Lemma convertTags_lookup (tags : gmap string Value) (k : string) :
  convertTags tags !! k = tags !! k ≫= converted.
Proof. by apply convertTags_in_lookup. Qed.

(** ** The semantic rewrite *)

Lemma disjoint_table_cons (e : string * string) (tbl : list (string * string)) :
  disjoint_table (e :: tbl) →
  disjoint_table tbl
  ∧ e.1 ≠ e.2 ∧ (e.1 ∉ tbl.*1) ∧ (e.1 ∉ tbl.*2) ∧ (e.2 ∉ tbl.*1) ∧ (e.2 ∉ tbl.*2).
Proof.
  unfold disjoint_table. rewrite !fmap_cons. simpl.
  rewrite <- Permutation_middle.
  intros [Hdst [Hsrc Hnd]%NoDup_cons]%NoDup_cons.
  rewrite not_elem_of_cons, not_elem_of_app in Hdst.
  rewrite not_elem_of_app in Hsrc.
  destruct Hdst as (? & ? & ?), Hsrc as (? & ?). repeat split; auto.
Qed.

Lemma disjoint_table_perm (tbl1 tbl2 : list (string * string)) :
  tbl1 ≡ₚ tbl2 → disjoint_table tbl1 → disjoint_table tbl2.
Proof. unfold disjoint_table. by intros ->. Qed.

Lemma transposeLabels_step_other (labels : gmap string string)
    (e : string * string) (x : string) :
  x ≠ e.1 → x ≠ e.2 → transposeLabels_step labels e !! x = labels !! x.
Proof.
  intros H1 H2. unfold transposeLabels_step.
  destruct (labels !! e.1); [|done].
  by rewrite lookup_delete_ne, lookup_insert_ne.
Qed.

Lemma transposeLabels_in_other (tbl : list (string * string)) :
  ∀ (labels : gmap string string) (x : string),
    x ∉ (tbl.*1) → x ∉ (tbl.*2) → transposeLabels_in tbl labels !! x = labels !! x.
Proof.
  unfold transposeLabels_in.
  induction tbl as [|e tbl IH]; intros labels x H1 H2; [done|].
  rewrite fmap_cons, not_elem_of_cons in H1, H2. simpl.
  rewrite IH by tauto. apply transposeLabels_step_other; tauto.
Qed.

(** An entry whose tag name is present moves the value under its label
    name, and later entries leave both names alone. *)
Lemma transposeLabels_in_moved (tbl : list (string * string)) :
  disjoint_table tbl →
  ∀ (labels : gmap string string) (k t v : string),
    (k, t) ∈ tbl → labels !! k = Some v →
    transposeLabels_in tbl labels !! t = Some v
    ∧ transposeLabels_in tbl labels !! k = None.
Proof.
  induction tbl as [|e tbl IH]; intros Hdis labels k t v Hin Hk.
  { by apply elem_of_nil in Hin. }
  apply disjoint_table_cons in Hdis as (Hdis & Hne & H11 & H12 & H21 & H22).
  apply elem_of_cons in Hin as [<-|Hin]; simpl in *.
  - change (transposeLabels_in ((k, t) :: tbl) labels)
      with (transposeLabels_in tbl (transposeLabels_step labels (k, t))).
    rewrite !transposeLabels_in_other by done.
    unfold transposeLabels_step. simpl. rewrite Hk.
    rewrite lookup_delete_eq, lookup_delete_ne, lookup_insert_eq by done. done.
  - change (transposeLabels_in (e :: tbl) labels)
      with (transposeLabels_in tbl (transposeLabels_step labels e)).
    apply IH; [done..|].
    rewrite transposeLabels_step_other; [done| |].
    + intros ->. apply H11. by apply (list_elem_of_fmap_2 fst _ (e.1, t)).
    + intros ->. apply H21. by apply (list_elem_of_fmap_2 fst _ (e.2, t)).
Qed.

(** Two entries of a well-formed table can be applied in either order. *)
Lemma transposeLabels_step_comm (labels : gmap string string)
    (e1 e2 : string * string) :
  e1.1 ≠ e2.1 → e1.1 ≠ e2.2 → e1.2 ≠ e2.1 → e1.2 ≠ e2.2 →
  transposeLabels_step (transposeLabels_step labels e1) e2
  = transposeLabels_step (transposeLabels_step labels e2) e1.
Proof.
  destruct e1 as [k1 t1], e2 as [k2 t2]. simpl. intros Hkk Hkt Htk Htt.
  unfold transposeLabels_step. simpl.
  destruct (labels !! k1) as [v1|] eqn:H1, (labels !! k2) as [v2|] eqn:H2.
  - rewrite lookup_delete_ne, lookup_insert_ne, H2 by done.
    rewrite lookup_delete_ne, lookup_insert_ne, H1 by done.
    rewrite <- (delete_insert_ne _ k1 t2) by done.
    rewrite <- (delete_insert_ne _ k2 t1) by done.
    rewrite (insert_insert_ne _ t2 t1) by done.
    by rewrite delete_delete.
  - by rewrite lookup_delete_ne, lookup_insert_ne, H2, ?H1 by done.
  - by rewrite ?H2, lookup_delete_ne, lookup_insert_ne, H1 by done.
  - by rewrite ?H1, ?H2.
Qed.

Lemma transposeLabels_in_perm (tbl1 tbl2 : list (string * string)) :
  tbl1 ≡ₚ tbl2 → disjoint_table tbl1 →
  ∀ labels : gmap string string,
    transposeLabels_in tbl1 labels = transposeLabels_in tbl2 labels.
Proof.
  unfold transposeLabels_in.
  induction 1 as [|e tbl1 tbl2 Hperm IH|e1 e2 tbl|tbl1 tbl2 tbl3 H12 IH12 H23 IH23];
    intros Hdis labels; simpl.
  - done.
  - apply disjoint_table_cons in Hdis as [Hdis _]. by apply IH.
  - apply disjoint_table_cons in Hdis as (Hdis & _ & H11 & H12 & H21 & H22).
    rewrite fmap_cons, not_elem_of_cons in H11, H12, H21, H22.
    destruct H11, H12, H21, H22.
    f_equal. apply transposeLabels_step_comm; congruence.
  - rewrite IH12 by done. apply IH23. by eapply disjoint_table_perm.
Qed.

Lemma labelMap_to_list : map_to_list labelMap ≡ₚ labelMap_entries.
Proof.
  unfold labelMap. apply map_to_list_to_map.
  apply (bool_decide_unpack _). by vm_compute.
Qed.

Lemma labelMap_disjoint : disjoint_table (map_to_list labelMap).
Proof.
  apply (disjoint_table_perm labelMap_entries); [by rewrite labelMap_to_list|].
  unfold disjoint_table. apply (bool_decide_unpack _). by vm_compute.
Qed.

(** ** Log flattening *)

Section LogLemmas.
Context `{TimePkg}.

Lemma writeFields_fieldsText (n : nat) (fields : list Field) :
  ∀ (j : nat) (buf : string),
    (j + length fields ≤ n + 1)%nat →
    writeFields n j fields buf = buf +:+ fieldsText fields.
Proof.
  induction fields as [|f fields IH]; intros j buf Hj; simpl in *.
  { by rewrite string_app_nil_r. }
  destruct (decide (j ≠ (n + 1)%nat)) as [_|Heq]; [|lia].
  rewrite IH by lia. unfold fieldText.
  by rewrite !string_app_assoc.
Qed.

Lemma logValue_fieldsText (l : LogRecord) :
  logValue l = time_String (Timestamp l) +:+ fieldsText (Fields l).
Proof. unfold logValue. apply writeFields_fieldsText. lia. Qed.

Lemma fieldsText_joinSpace (fields : list Field) :
  fields ≠ [] → fieldsText fields = joinSpace (fieldText <$> fields) +:+ " ".
Proof.
  induction fields as [|f fields IH]; intros Hne; [done|].
  destruct fields as [|f' fields].
  { simpl. by rewrite string_app_nil_r. }
  change (fieldsText (f :: f' :: fields))
    with (fieldText f +:+ " " +:+ fieldsText (f' :: fields)).
  rewrite IH by done.
  change (joinSpace (fieldText <$> f :: f' :: fields))
    with (fieldText f +:+ " " +:+ joinSpace (fieldText <$> f' :: fields)).
  by rewrite !string_app_assoc.
Qed.

(** With at least one field, the value built by the code is the one the
    design document describes plus one trailing space. *)
Lemma logValue_trailing_space (l : LogRecord) :
  Fields l ≠ [] → logValue l = logValue_spec l +:+ " ".
Proof.
  intros Hne. rewrite logValue_fieldsText. unfold logValue_spec.
  by rewrite fieldsText_joinSpace, string_app_assoc.
Qed.

Lemma logValue_no_fields (l : LogRecord) :
  Fields l = [] → logValue l = logValue_spec l.
Proof.
  intros Hnil. rewrite logValue_fieldsText. unfold logValue_spec.
  by rewrite Hnil.
Qed.

#[global] Instance eventKey_inj : Inj (=) (=) eventKey.
Proof.
  intros i j Hij. unfold eventKey, fmt.Sprintf_d in Hij.
  apply (inj (String.app "event_")) in Hij. by apply (inj pretty) in Hij.
Qed.

Lemma addLogs_from_other (logs : list LogRecord) :
  ∀ (i : nat) (target : gmap string string) (x : string),
    (∀ j, (i ≤ j)%nat → x ≠ eventKey j) →
    addLogs_from i target logs !! x = target !! x.
Proof.
  induction logs as [|l logs IH]; intros i target x Hx; simpl; [done|].
  rewrite IH by (intros j Hj; apply Hx; lia).
  rewrite lookup_insert_ne; [done|]. intros Heq. by apply (Hx i).
Qed.

(** The label of the log record at index [j] is written whatever the
    target held before, and no later record touches it. *)
Lemma addLogs_from_lookup (logs : list LogRecord) :
  ∀ (i j : nat) (target : gmap string string) (l : LogRecord),
    logs !! j = Some l →
    addLogs_from i target logs !! eventKey (i + j) = Some (logValue l).
Proof.
  induction logs as [|l0 logs IH]; intros i j target l Hj; [done|].
  destruct j as [|j]; simpl in *.
  - injection Hj as ->. rewrite Nat.add_0_r.
    rewrite addLogs_from_other.
    + apply lookup_insert_eq.
    + intros j Hj Heq. apply (inj eventKey) in Heq. lia.
  - replace (i + S j)%nat with (S i + j)%nat by lia. by apply IH.
Qed.

Lemma addLogs_lookup (target : gmap string string) (logs : list LogRecord)
    (i : nat) (l : LogRecord) :
  logs !! i = Some l → addLogs target logs !! eventKey i = Some (logValue l).
Proof. intros Hi. by apply (addLogs_from_lookup logs 0 i). Qed.

End LogLemmas.

(** ** Recording a span *)

Section RecordSpanProps.
Context `{TimePkg}.
Variable world : Collaborators.

(** C2.  A span whose sampling flag is false is skipped: [RecordSpan]
    returns at once and leaves the history of events as it found it, so
    nothing is enqueued, nothing is uploaded and nothing is logged. *)
Theorem RecordSpan_unsampled_noop (r : Recorder) (sp : RawSpan)
    (h : list Event) :
  Sampled (Context sp) = false →
  RecordSpan world r sp h = (tt, h).
Proof. intros Hs. unfold RecordSpan. by rewrite Hs. Qed.

(** C1.  When the bundler answers a sampled span's record with
    [ErrOverflow], [RecordSpan] logs that the bundle is full and makes
    exactly one [PatchTraces] call, whose batch is that one record; if
    that call fails the error is logged; in both cases [RecordSpan]
    returns normally. *)
Theorem RecordSpan_overflow_fallback (r : Recorder) (sp : RawSpan)
    (h : list Event) :
  Sampled (Context sp) = true →
  bundler_Add world h (traceOf r sp) 2 = Some ErrOverflow →
  let trace := traceOf r sp in
  let enqueue := EvAdd (bundler r) trace 2 in
  let full := EvErrorf (log r) "trace upload bundle too full. uploading immediately" in
  let fallback := EvPatchTraces (traceClient r) (project r) [trace] in
  RecordSpan world r sp h
  = (tt,
     match PatchTraces_Do world (h ++ [enqueue; full]) (project r) [trace] with
     | Some e =>
         h ++ [enqueue; full; fallback;
               EvErrorf (log r) ("error uploading trace: " +:+ Error e)]
     | None => h ++ [enqueue; full; fallback]
     end).
Proof.
  intros Hs Hadd. simpl.
  unfold RecordSpan, bind, Add, Errorf, upload. rewrite Hs. simpl.
  rewrite Hadd. rewrite decide_True by done.
  rewrite <- !(assoc_L (++)). simpl.
  destruct (PatchTraces_Do world _ _ _) as [e|]; simpl;
    by rewrite <- ?(assoc_L (++)).
Qed.

(** C9.  When the bundler answers a sampled span's record with an error
    other than [ErrOverflow], [RecordSpan] does nothing more: the only
    event is the enqueue attempt itself; nothing is logged, nothing is
    uploaded, and the call returns normally. *)
Theorem RecordSpan_other_error_dropped (r : Recorder) (sp : RawSpan)
    (h : list Event) (e : error) :
  Sampled (Context sp) = true →
  bundler_Add world h (traceOf r sp) 2 = Some e →
  e ≠ ErrOverflow →
  RecordSpan world r sp h = (tt, h ++ [EvAdd (bundler r) (traceOf r sp) 2]).
Proof.
  intros Hs Hadd Hne.
  unfold RecordSpan, bind, Add. rewrite Hs. simpl.
  rewrite Hadd. rewrite decide_False; [done|]. congruence.
Qed.

(** C8.  The record handed to the bundler for a sampled span has as its
    trace id the span's 64-bit trace identifier printed as sixteen
    lowercase hexadecimal digits (zero padded), written twice: a string
    of 32 hexadecimal characters whose two halves both read back as the
    identifier. *)
Theorem RecordSpan_trace_id (r : Recorder) (sp : RawSpan) (h : list Event) :
  Sampled (Context sp) = true →
  0 ≤ TraceID (Context sp) < 2 ^ 64 →
  let hex := fmt.Sprintf_016x (TraceID (Context sp)) in
  (∃ trace rest,
      (RecordSpan world r sp h).2 = h ++ EvAdd (bundler r) trace 2 :: rest
      ∧ TraceId trace = hex +:+ hex)
  ∧ String.length hex = 16%nat
  ∧ fmt.parse_hex hex = Some (TraceID (Context sp))
  ∧ hex_string (hex +:+ hex) = true
  ∧ String.length (hex +:+ hex) = 32%nat.
Proof.
  intros Hs Hid hex.
  destruct (Sprintf_016x_spec _ Hid) as (Hlen & Hval & Hhex).
  fold hex in Hlen, Hval, Hhex.
  split; [|split; [done|split; [done|split]]].
  - exists (traceOf r sp).
    unfold RecordSpan, bind, Add. rewrite Hs. simpl.
    destruct (decide _); simpl.
    + unfold Errorf, upload. simpl.
      destruct (PatchTraces_Do world _ _ _); simpl;
        rewrite <- !(assoc_L (++)); simpl; eauto.
    + exists []. done.
  - by apply hex_string_app.
  - by rewrite string_app_length, Hlen.
Qed.

End RecordSpanProps.

(** ** Labels of the record *)


(** C6.  Whatever the order the rewrite table is visited in, for every
    entry of the table whose well-known key is present in the label set,
    the rewritten label set holds that key's value under the entry's
    Cloud Trace key and holds nothing under the well-known key. *)
Theorem transposeLabels_moves_known_keys (visit : list (string * string))
    (labels : gmap string string) (k t v : string) :
  visit ≡ₚ map_to_list labelMap →
  labelMap !! k = Some t →
  labels !! k = Some v →
  transposeLabels_in visit labels !! t = Some v
  ∧ transposeLabels_in visit labels !! k = None.
Proof.
  intros Hperm Hkt Hk.
  apply transposeLabels_in_moved; [|by rewrite Hperm, elem_of_map_to_list|done].
  apply (disjoint_table_perm (map_to_list labelMap)); [done|].
  apply labelMap_disjoint.
Qed.

(** C7.  Any two orders of visiting the rewrite table's entries give the
    same rewritten label set. *)
Theorem transposeLabels_order_independent (visit1 visit2 : list (string * string))
    (labels : gmap string string) :
  visit1 ≡ₚ map_to_list labelMap →
  visit2 ≡ₚ map_to_list labelMap →
  transposeLabels_in visit1 labels = transposeLabels_in visit2 labels.
Proof.
  intros H1 H2. apply transposeLabels_in_perm; [by rewrite H1, H2|].
  apply (disjoint_table_perm (map_to_list labelMap)); [done|].
  apply labelMap_disjoint.
Qed.

Section LabelProps.
Context `{TimePkg}.

(** C10.  Log flattening is applied to the label set built from the
    tags, so when that set already holds a label named [event_<i>] and
    the span has a log record at index [i], the record's labels hold the
    flattened log record under that name, not the tag's value. *)
Theorem RecordSpan_log_label_wins (r : Recorder) (sp : RawSpan) (i : nat)
    (l : LogRecord) (v : string) :
  transposeLabels (convertTags (Tags sp)) !! eventKey i = Some v →
  Logs sp !! i = Some l →
  ts_Labels <$> Spans (traceOf r sp)
  = [ addLogs (transposeLabels (convertTags (Tags sp))) (Logs sp) ]
  ∧ addLogs (transposeLabels (convertTags (Tags sp))) (Logs sp) !! eventKey i
    = Some (logValue l).
Proof. intros _ Hi. split; [done|]. by apply addLogs_lookup. Qed.

(** C3.  The label written for a log record with the single field
    [k=v]: the code ends the value with a space after the last field,
    where the described value ends with the field itself. *)
Theorem addLogs_last_field_separator (stamp : time_Time) :
  let l := {| Timestamp := stamp;
              Fields := [ {| Key := "k"; FieldValue := VString "v" |} ] |} in
  addLogs ∅ [l] !! "event_0" = Some (time_String stamp +:+ "k=v ")
  ∧ logValue_spec l = time_String stamp +:+ "k=v"
  ∧ addLogs ∅ [l] !! "event_0" ≠ Some (logValue_spec l).
Proof.
  intros l.
  assert (Hcode : addLogs ∅ [l] !! "event_0" = Some (time_String stamp +:+ "k=v ")).
  { change "event_0" with (eventKey 0).
    rewrite (addLogs_lookup ∅ [l] 0 l) by done.
    by rewrite logValue_fieldsText. }
  assert (Hspec : logValue_spec l = time_String stamp +:+ "k=v") by done.
  split; [done|split; [done|]].
  rewrite Hcode, Hspec. intros Heq. injection Heq as Heq.
  by apply (inj (String.app _)) in Heq.
Qed.

End LabelProps.

(** ** Construction *)

Section NewRecorderProps.
Variable world : Collaborators.

(** C4, as the code has it.  [NewRecorder] checks the project identifier
    before anything else: when the options leave it empty the result is
    [ErrInvalidProjectID] and no recorder.  The credentials are not
    looked at: with a project identifier, validation passes whatever
    they are, they are copied into the client configuration as given,
    and the result is the client constructor's error or a recorder for
    that project. *)
Theorem NewRecorder_validates_project_only (c : GoContext) (opts : list Option) :
  let options := applyOptions opts in
  (projectID options = "" →
     NewRecorder world c opts = Err ErrInvalidProjectID)
  ∧ (projectID options ≠ "" →
     Valid options = None
     ∧ NewRecorder world c opts
       = match cloudtrace_New world (jwtConfig options) with
         | Err e => Err e
         | Ok client =>
             Ok {| project := projectID options;
                   ctx := c;
                   log := default defaultLogger (opt_log options);
                   traceClient := client;
                   bundler := newBundler |}
         end).
Proof.
  intros options. unfold NewRecorder, Valid. fold options.
  split; intros Hp.
  - by rewrite decide_True.
  - rewrite decide_False by done. split; [done|].
    by destruct (opt_log options).
Qed.

End NewRecorderProps.

(** ** The statements at sample inputs *)

Example Itoa_examples :
  strconv.Itoa 0 = "0" ∧ strconv.Itoa 42 = "42" ∧ strconv.Itoa (-7) = "-7"
  ∧ strconv.Itoa 200 = "200".
Proof. by vm_compute. Qed.

Example Sprintf_016x_examples :
  fmt.Sprintf_016x 0 = "0000000000000000"
  ∧ fmt.Sprintf_016x 255 = "00000000000000ff"
  ∧ fmt.Sprintf_016x 81985529216486895 = "0123456789abcdef"
  ∧ fmt.Sprintf_016x (2 ^ 64 - 1) = "ffffffffffffffff".
Proof. by vm_compute. Qed.

Example eventKey_examples : eventKey 0 = "event_0" ∧ eventKey 12 = "event_12".
Proof. by vm_compute. Qed.

Example convertTags_mixed :
  convertTags mixedTags = {[ "name" := "x"; "count" := "42" ]}.
Proof. apply (bool_decide_unpack _). by vm_compute. Qed.

Example transposeLabels_hostTags :
  transposeLabels (convertTags hostTags)
  = {[ "trace.cloud.google.com/http/host" := "a"; "custom" := "b" ]}.
Proof. apply (bool_decide_unpack _). by vm_compute. Qed.

Example convertSpanKind_examples :
  convertSpanKind {[ "span.kind" := ext.SpanKindRPCServerEnum ]} = "RPC_SERVER"
  ∧ convertSpanKind {[ "span.kind" := ext.SpanKindRPCClientEnum ]} = "RPC_CLIENT"
  ∧ convertSpanKind {[ "span.kind" := VString "server" ]} = "SPAN_KIND_UNSPECIFIED"
  ∧ convertSpanKind ∅ = "SPAN_KIND_UNSPECIFIED".
Proof. by vm_compute. Qed.

Example sampleTrace_value :
  sampleTrace
  = {| ProjectId := "my-project";
       TraceId := "00000000000000ff00000000000000ff";
       Spans := [ {| ts_SpanId := 7;
                     ts_Kind := "SPAN_KIND_UNSPECIFIED";
                     ts_Name := "GET /";
                     ts_StartTime := "1000";
                     ts_EndTime := "1010";
                     ts_ParentSpanId := 0;
                     ts_Labels := {[ "event_0" := "5k=v " ]} |} ] |}.
Proof. by vm_compute. Qed.

Lemma RecordSpan_unsampled_noop_witness :
  Sampled (Context (sampleSpan false)) = false
  ∧ RecordSpan (H := counterClock) quietWorld sampleRecorder (sampleSpan false) []
    = (tt, []).
Proof.
  split; [reflexivity|].
  apply RecordSpan_unsampled_noop. reflexivity.
Defined.

Lemma RecordSpan_overflow_fallback_witness :
  RecordSpan (H := counterClock) fullWorld sampleRecorder (sampleSpan true) []
  = (tt,
     [ EvAdd newBundler sampleTrace 2;
       EvErrorf defaultLogger "trace upload bundle too full. uploading immediately";
       EvPatchTraces (traceClient sampleRecorder) "my-project" [sampleTrace];
       EvErrorf defaultLogger "error uploading trace: unavailable" ]).
Proof.
  exact (RecordSpan_overflow_fallback (H := counterClock) fullWorld sampleRecorder
           (sampleSpan true) [] eq_refl eq_refl).
Defined.

Lemma RecordSpan_other_error_dropped_witness :
  RecordSpan (H := counterClock) oversizedWorld sampleRecorder (sampleSpan true) []
  = (tt, [ EvAdd newBundler sampleTrace 2 ]).
Proof.
  apply (RecordSpan_other_error_dropped (H := counterClock) oversizedWorld
           sampleRecorder (sampleSpan true) [] ErrOversizedItem);
    [reflexivity|reflexivity|discriminate].
Defined.

Lemma RecordSpan_trace_id_witness :
  TraceID (Context (sampleSpan true)) = 255
  ∧ (∃ trace rest,
        (RecordSpan (H := counterClock) quietWorld sampleRecorder (sampleSpan true) []).2
        = [] ++ EvAdd newBundler trace 2 :: rest
        ∧ TraceId trace = fmt.Sprintf_016x 255 +:+ fmt.Sprintf_016x 255)
  ∧ String.length (fmt.Sprintf_016x 255 +:+ fmt.Sprintf_016x 255) = 32%nat.
Proof.
  split; [reflexivity|].
  destruct (RecordSpan_trace_id (H := counterClock) quietWorld sampleRecorder
              (sampleSpan true) []) as (Hadd & _ & _ & _ & Hlen).
  - reflexivity.
  - simpl. lia.
  - split; [exact Hadd|exact Hlen].
Defined.


Lemma transposeLabels_moves_known_keys_witness :
  transposeLabels_in labelMap_entries (convertTags hostTags)
    !! "trace.cloud.google.com/http/host" = Some "a"
  ∧ transposeLabels_in labelMap_entries (convertTags hostTags) !! "peer.hostname"
    = None.
Proof.
  apply transposeLabels_moves_known_keys.
  - symmetry. apply labelMap_to_list.
  - by vm_compute.
  - by vm_compute.
Defined.

Lemma transposeLabels_order_independent_witness :
  transposeLabels_in labelMap_entries (convertTags hostTags)
  = transposeLabels_in (reverse labelMap_entries) (convertTags hostTags).
Proof.
  apply transposeLabels_order_independent.
  - symmetry. apply labelMap_to_list.
  - rewrite reverse_Permutation. symmetry. apply labelMap_to_list.
Defined.

Lemma RecordSpan_log_label_wins_witness :
  transposeLabels (convertTags (Tags (sampleSpan true))) !! eventKey 0
  = Some "from-tag"
  ∧ addLogs (transposeLabels (convertTags (Tags (sampleSpan true))))
      (Logs (sampleSpan true)) !! eventKey 0
    = Some "5k=v ".
Proof.
  split; [by vm_compute|].
  apply (RecordSpan_log_label_wins (H := counterClock) sampleRecorder
           (sampleSpan true) 0 sampleLog "from-tag");
    [by vm_compute|reflexivity].
Defined.

(** C4 fails for the credentials: with a project identifier and no
    credentials at all, validation passes and a recorder is returned. *)
Lemma NewRecorder_accepts_missing_credentials :
  credentials (applyOptions projectOnly)
  = {| Email := ""; PrivateKey := ""; PrivateKeyID := "" |}
  ∧ Valid (applyOptions projectOnly) = None
  ∧ NewRecorder quietWorld (ctxHandle 0) projectOnly
    = Ok {| project := "my-project";
            ctx := ctxHandle 0;
            log := defaultLogger;
            traceClient := {| svc_conf := jwtConfig (applyOptions projectOnly) |};
            bundler := newBundler |}.
Proof. by vm_compute. Qed.

Lemma NewRecorder_validates_project_only_witness :
  NewRecorder quietWorld (ctxHandle 0) credentialsOnly = Err ErrInvalidProjectID
  ∧ Valid (applyOptions projectOnly) = None.
Proof.
  split.
  - apply (proj1 (NewRecorder_validates_project_only quietWorld (ctxHandle 0)
                    credentialsOnly)).
    reflexivity.
  - apply (proj2 (NewRecorder_validates_project_only quietWorld (ctxHandle 0)
                    projectOnly)).
    discriminate.
Defined.

(** * Further properties of the package *)

(** ** The semantic rewrite, continued *)

Lemma transposeLabels_in_source_gone (tbl : list (string * string)) :
  disjoint_table tbl →
  ∀ (labels : gmap string string) (k : string),
    k ∈ tbl.*1 → transposeLabels_in tbl labels !! k = None.
Proof.
  induction tbl as [|e tbl IH]; intros Hdis labels k Hk.
  { by apply elem_of_nil in Hk. }
  apply disjoint_table_cons in Hdis as (Hdis & Hne & H11 & H12 & H21 & H22).
  change (transposeLabels_in (e :: tbl) labels)
    with (transposeLabels_in tbl (transposeLabels_step labels e)).
  rewrite fmap_cons in Hk. apply elem_of_cons in Hk as [->|Hk].
  - rewrite transposeLabels_in_other by done.
    unfold transposeLabels_step.
    destruct (labels !! e.1) eqn:He; [|done]. apply lookup_delete_eq.
  - by apply IH.
Qed.

Lemma transposeLabels_in_dest_kept (tbl : list (string * string)) :
  disjoint_table tbl →
  ∀ (labels : gmap string string) (k t : string),
    (k, t) ∈ tbl → labels !! k = None →
    transposeLabels_in tbl labels !! t = labels !! t.
Proof.
  induction tbl as [|e tbl IH]; intros Hdis labels k t Hin Hk.
  { by apply elem_of_nil in Hin. }
  apply disjoint_table_cons in Hdis as (Hdis & Hne & H11 & H12 & H21 & H22).
  change (transposeLabels_in (e :: tbl) labels)
    with (transposeLabels_in tbl (transposeLabels_step labels e)).
  apply elem_of_cons in Hin as [<-|Hin]; simpl in *.
  - rewrite transposeLabels_in_other by done.
    unfold transposeLabels_step. simpl. by rewrite Hk.
  - assert (Hk1 : k ≠ e.1).
    { intros ->. apply H11. by apply (list_elem_of_fmap_2 fst _ (e.1, t)). }
    assert (Hk2 : k ≠ e.2).
    { intros ->. apply H21. by apply (list_elem_of_fmap_2 fst _ (e.2, t)). }
    assert (Ht1 : t ≠ e.1).
    { intros ->. apply H12. by apply (list_elem_of_fmap_2 snd _ (k, e.1)). }
    assert (Ht2 : t ≠ e.2).
    { intros ->. apply H22. by apply (list_elem_of_fmap_2 snd _ (k, e.2)). }
    rewrite (IH Hdis _ k t Hin).
    + by apply transposeLabels_step_other.
    + by rewrite transposeLabels_step_other.
Qed.

Lemma transposeLabels_in_noop (tbl : list (string * string)) :
  ∀ labels : gmap string string,
    (∀ k, k ∈ tbl.*1 → labels !! k = None) →
    transposeLabels_in tbl labels = labels.
Proof.
  induction tbl as [|e tbl IH]; intros labels Hnone; [done|].
  change (transposeLabels_in (e :: tbl) labels)
    with (transposeLabels_in tbl (transposeLabels_step labels e)).
  assert (Hstep : transposeLabels_step labels e = labels).
  { unfold transposeLabels_step. rewrite Hnone; [done|]. rewrite fmap_cons. left. }
  rewrite Hstep. apply IH. intros k Hk. apply Hnone. rewrite fmap_cons. by right.
Qed.

Lemma transposeLabels_step_size (labels : gmap string string) (e : string * string) :
  (size (transposeLabels_step labels e) ≤ size labels)%nat.
Proof.
  unfold transposeLabels_step. destruct (labels !! e.1) as [v|] eqn:He; [|done].
  destruct (decide (e.1 = e.2)) as [Heq|Hne].
  - rewrite <- Heq, delete_insert_eq, map_size_delete, He. simpl. lia.
  - rewrite map_size_delete, lookup_insert_ne, He by done. simpl.
    rewrite map_size_insert. destruct (labels !! e.2); simpl; lia.
Qed.

Lemma visit_disjoint (visit : list (string * string)) :
  visit ≡ₚ map_to_list labelMap → disjoint_table visit.
Proof.
  intros Hperm. apply (disjoint_table_perm (map_to_list labelMap)); [done|].
  apply labelMap_disjoint.
Qed.

(** X1.  Labels that the rewrite table does not name, neither as a
    well-known tag name nor as a Cloud Trace name, pass through the rewrite
    unchanged, present or absent. *)
Theorem transposeLabels_keeps_other_labels (visit : list (string * string))
    (labels : gmap string string) (x : string) :
  visit ≡ₚ map_to_list labelMap →
  labelMap !! x = None →
  (∀ k, labelMap !! k ≠ Some x) →
  transposeLabels_in visit labels !! x = labels !! x.
Proof.
  intros Hperm Hsrc Hdst. apply transposeLabels_in_other.
  - intros [[k t] [-> Hin]]%list_elem_of_fmap. simpl in *.
    rewrite Hperm, elem_of_map_to_list in Hin. congruence.
  - intros [[k t] [-> Hin]]%list_elem_of_fmap. simpl in *.
    rewrite Hperm, elem_of_map_to_list in Hin. by apply (Hdst k).
Qed.

(** X2.  A label already stored under a Cloud Trace name survives the
    rewrite when the matching well-known tag is absent; it is only
    replaced when that tag is present. *)
Theorem transposeLabels_keeps_native_label (visit : list (string * string))
    (labels : gmap string string) (k t : string) :
  visit ≡ₚ map_to_list labelMap →
  labelMap !! k = Some t →
  labels !! k = None →
  transposeLabels_in visit labels !! t = labels !! t.
Proof.
  intros Hperm Hkt Hk.
  apply (transposeLabels_in_dest_kept visit (visit_disjoint _ Hperm) labels k t);
    [|done].
  by rewrite Hperm, elem_of_map_to_list.
Qed.

(** X3.  After the rewrite no well-known tag name of the table is left in
    the label set, so rewriting a second time, in any order, changes
    nothing. *)
Theorem transposeLabels_idempotent (visit1 visit2 : list (string * string))
    (labels : gmap string string) :
  visit1 ≡ₚ map_to_list labelMap →
  visit2 ≡ₚ map_to_list labelMap →
  (∀ k, is_Some (labelMap !! k) → transposeLabels_in visit1 labels !! k = None)
  ∧ transposeLabels_in visit2 (transposeLabels_in visit1 labels)
    = transposeLabels_in visit1 labels.
Proof.
  intros H1 H2.
  assert (Hgone : ∀ k, k ∈ visit1.*1 → transposeLabels_in visit1 labels !! k = None).
  { intros k Hk. by apply transposeLabels_in_source_gone; [apply visit_disjoint|]. }
  split.
  - intros k [t Hkt]. apply Hgone.
    apply (list_elem_of_fmap_2 fst _ (k, t)).
    by rewrite H1, elem_of_map_to_list.
  - apply transposeLabels_in_noop. intros k Hk. apply Hgone.
    by rewrite H1, <- H2.
Qed.

(** X4.  The rewrite never adds to the number of labels: every entry it
    writes replaces the entry it deletes. *)
Theorem transposeLabels_size (visit : list (string * string))
    (labels : gmap string string) :
  (size (transposeLabels_in visit labels) ≤ size labels)%nat.
Proof.
  revert labels. unfold transposeLabels_in.
  induction visit as [|e visit IH]; intros labels; simpl; [done|].
  etrans; [apply IH|]. apply transposeLabels_step_size.
Qed.

(** ** Tag conversion and the span kind, continued *)

(** X5.  Tag conversion invents no key: every label it produces stands
    under the key of a tag, so there are at most as many labels as tags,
    and no tags give no labels. *)
Theorem convertTags_keys_from_tags (tags : gmap string Value) :
  dom (convertTags tags) ⊆ dom tags
  ∧ (size (convertTags tags) ≤ size tags)%nat
  ∧ (tags = ∅ → convertTags tags = ∅).
Proof.
  assert (Hsub : dom (convertTags tags) ⊆ dom tags).
  { intros k [s Hk]%elem_of_dom. rewrite convertTags_lookup in Hk.
    apply elem_of_dom. destruct (tags !! k); [eauto|done]. }
  split; [done|split].
  - rewrite <- !(size_dom (D := gset string)). by apply subseteq_size.
  - intros ->. done.
Qed.

(** X6.  The span kind is [RPC_SERVER] exactly when the [span.kind] tag
    holds the server constant of type [ext.SpanKindEnum], [RPC_CLIENT]
    exactly when it holds the client constant, and unspecified in every
    other case: a missing tag, another value, or a plain string that
    spells the same word. *)
Theorem convertSpanKind_cases (tags : gmap string Value) :
  (convertSpanKind tags = "RPC_SERVER"
     ↔ tags !! "span.kind" = Some (VSpanKindEnum "server"))
  ∧ (convertSpanKind tags = "RPC_CLIENT"
     ↔ tags !! "span.kind" = Some (VSpanKindEnum "client"))
  ∧ (convertSpanKind tags = "SPAN_KIND_UNSPECIFIED"
     ↔ tags !! "span.kind" ≠ Some (VSpanKindEnum "server")
       ∧ tags !! "span.kind" ≠ Some (VSpanKindEnum "client"))
  ∧ (∀ s, tags !! "span.kind" = Some (VString s) →
          convertSpanKind tags = "SPAN_KIND_UNSPECIFIED").
Proof.
  unfold convertSpanKind, ext.SpanKind, ext.SpanKindRPCServerEnum,
    ext.SpanKindRPCClientEnum.
  destruct (tags !! "span.kind") as [v|];
    repeat case_decide; subst; intuition (try discriminate; congruence).
Qed.

(** ** Log flattening, continued *)

Section AddLogsProps.
Context `{TimePkg}.

Lemma addLogs_from_untouched (logs : list LogRecord) :
  ∀ (i : nat) (target : gmap string string) (x : string),
    (∀ j, (i ≤ j < i + length logs)%nat → x ≠ eventKey j) →
    addLogs_from i target logs !! x = target !! x.
Proof.
  induction logs as [|l logs IH]; intros i target x Hx; simpl in *; [done|].
  rewrite IH by (intros j Hj; apply Hx; lia).
  apply lookup_insert_ne. intros Heq. apply (Hx i); [lia|done].
Qed.

Lemma addLogs_from_dom (logs : list LogRecord) :
  ∀ (i : nat) (target : gmap string string),
    dom (addLogs_from i target logs)
    = dom target ∪ list_to_set (eventKey <$> seq i (length logs)).
Proof.
  induction logs as [|l logs IH]; intros i target; simpl.
  { by rewrite (right_id_L ∅ (∪)). }
  rewrite IH, dom_insert_L.
  rewrite (comm_L (∪) {[eventKey i]} (dom target)).
  by rewrite <- (assoc_L (∪)).
Qed.

Lemma addLogs_from_size (logs : list LogRecord) :
  ∀ (i : nat) (target : gmap string string),
    (∀ j, (i ≤ j < i + length logs)%nat → target !! eventKey j = None) →
    size (addLogs_from i target logs) = (size target + length logs)%nat.
Proof.
  induction logs as [|l logs IH]; intros i target Hfresh; simpl in *; [lia|].
  rewrite IH.
  - rewrite map_size_insert_None by (apply Hfresh; lia). lia.
  - intros j Hj. rewrite lookup_insert_ne; [apply Hfresh; lia|].
    intros Heq. apply (inj eventKey) in Heq. lia.
Qed.

Lemma addLogs_untouched (target : gmap string string) (logs : list LogRecord)
    (x : string) :
  (∀ j, (j < length logs)%nat → x ≠ eventKey j) →
  addLogs target logs !! x = target !! x.
Proof.
  intros Hx. apply addLogs_from_untouched. intros j Hj. apply Hx. lia.
Qed.

(** X7.  Log flattening touches only the labels named [event_<j>] for the
    indices [j] of the log records: every other label of the target,
    present or absent, is as before. *)
Theorem addLogs_keeps_other_labels (target : gmap string string)
    (logs : list LogRecord) (x : string) :
  (∀ j, (j < length logs)%nat → x ≠ eventKey j) →
  addLogs target logs !! x = target !! x.
Proof.
  intros Hx. apply addLogs_from_untouched. intros j Hj. apply Hx. lia.
Qed.

(** X8.  Log flattening adds one label per log record: the keys of the
    result are those of the target and the names [event_0] to
    [event_<n-1>] for [n] records; on a target without such names the
    number of labels grows by exactly [n], and with no records nothing
    changes. *)
Theorem addLogs_one_label_per_record (target : gmap string string)
    (logs : list LogRecord) :
  dom (addLogs target logs)
  = dom target ∪ list_to_set (eventKey <$> seq 0 (length logs))
  ∧ ((∀ j, (j < length logs)%nat → target !! eventKey j = None) →
     size (addLogs target logs) = (size target + length logs)%nat)
  ∧ (logs = [] → addLogs target logs = target).
Proof.
  split; [apply addLogs_from_dom|split].
  - intros Hfresh. apply addLogs_from_size. intros j Hj. apply Hfresh. lia.
  - by intros ->.
Qed.

(** X9.  The label value of a log record is the timestamp's text directly
    followed, for each field in order, by [key=value] and one space: there
    is no separator between the timestamp and the first field, and the
    separator after the last field is never left out.  A record without
    fields gives the timestamp's text alone. *)
Theorem logValue_every_field_spaced (l : LogRecord) :
  logValue l = time_String (Timestamp l) +:+ fieldsText (Fields l)
  ∧ String.length (logValue l)
    = (String.length (time_String (Timestamp l))
       + sum_list ((λ f, String.length (fieldText f) + 1)%nat <$> Fields l))%nat
  ∧ (Fields l = [] → logValue l = time_String (Timestamp l)).
Proof.
  assert (Hval := logValue_fieldsText l).
  split; [done|split].
  - rewrite Hval, string_app_length. f_equal. clear Hval.
    induction (Fields l) as [|f fields IH]; [done|].
    change (fieldsText (f :: fields))
      with (fieldText f +:+ " " +:+ fieldsText fields).
    rewrite fmap_cons, !string_app_length, IH. simpl. lia.
  - intros Hnil. rewrite Hval, Hnil. apply string_app_nil_r.
Qed.

End AddLogsProps.

(** ** Recording a span, continued *)

Lemma string_app_inj_length (s1 s2 t1 t2 : string) :
  String.length s1 = String.length s2 →
  s1 +:+ t1 = s2 +:+ t2 → s1 = s2.
Proof.
  revert s2. induction s1 as [|c1 s1 IH]; intros [|c2 s2] Hlen Heq;
    simpl in *; try done.
  rewrite !string_app_cons in Heq. injection Heq as -> Heq.
  f_equal. apply IH; [lia|done].
Qed.

Section RecordSpanMore.
Context `{TimePkg}.
Variable world : Collaborators.

(** X10.  When the bundler accepts the record of a sampled span,
    [RecordSpan] does nothing else: the only event is the enqueue of that
    record with weight 2; nothing is logged and the collector is not
    called. *)
Theorem RecordSpan_enqueued (r : Recorder) (sp : RawSpan) (h : list Event) :
  Sampled (Context sp) = true →
  bundler_Add world h (traceOf r sp) 2 = None →
  RecordSpan world r sp h = (tt, h ++ [EvAdd (bundler r) (traceOf r sp) 2]).
Proof.
  intros Hs Hadd. unfold RecordSpan, bind, Add. rewrite Hs. simpl.
  by rewrite Hadd.
Qed.

(** X11.  [RecordSpan] only appends to the history, at most four events,
    and it calls the collector itself exactly when the span is sampled and
    the bundler answered [ErrOverflow]: then once, for its own project and
    with the one record; otherwise never. *)
Theorem RecordSpan_uploads_only_on_overflow (r : Recorder) (sp : RawSpan)
    (h : list Event) :
  ∃ new,
    RecordSpan world r sp h = (tt, h ++ new)
    ∧ (length new ≤ 4)%nat
    ∧ filter (λ e, isPatchTraces e = true) new
      = if bool_decide (Sampled (Context sp) = true
                        ∧ bundler_Add world h (traceOf r sp) 2 = Some ErrOverflow)
        then [EvPatchTraces (traceClient r) (project r) [traceOf r sp]]
        else [].
Proof.
  unfold RecordSpan, bind, Add, Errorf, upload, ret.
  destruct (Sampled (Context sp)) eqn:Hs; simpl.
  - destruct (decide (bundler_Add world h (traceOf r sp) 2 = Some ErrOverflow))
      as [Hov|Hov]; simpl.
    + destruct (PatchTraces_Do world _ _ _); simpl.
      * eexists [_; _; _; _]. rewrite <- !(assoc_L (++)). simpl.
        split; [done|]. split; [lia|]. by rewrite bool_decide_eq_true_2.
      * eexists [_; _; _]. rewrite <- !(assoc_L (++)). simpl.
        split; [done|]. split; [lia|]. by rewrite bool_decide_eq_true_2.
    + eexists [_]. split; [done|]. split; [simpl; lia|].
      by rewrite bool_decide_eq_false_2 by tauto.
  - exists []. rewrite (right_id_L [] (++)). split; [done|]. split; [simpl; lia|].
    done.
Qed.

(** X12.  The callback given to the bundler sends the whole bundle in one
    call for the recorder's project; a failure is reported once to the
    recorder's logger, with the number of traces and the error, and the
    bundle is not sent again. *)
Theorem bundleHandler_reports_failure (rec : Recorder) (traces : list Trace)
    (h : list Event) :
  bundleHandler world rec traces h
  = (tt,
     h ++ EvPatchTraces (traceClient rec) (project rec) traces
       :: match PatchTraces_Do world h (project rec) traces with
          | Some e =>
              [EvErrorf (log rec)
                 ("failed to upload " +:+ fmt.Sprintf_d (length traces)
                  +:+ " traces to the Cloud Trace server. (err = "
                  +:+ Error e +:+ ")")]
          | None => []
          end).
Proof.
  unfold bundleHandler, bind, upload, Errorf, ret.
  destruct (PatchTraces_Do world _ _ _); simpl; [|done].
  by rewrite <- (assoc_L (++)).
Qed.

(** X13.  Rendering the trace identifier loses nothing: the records of
    two spans carry the same trace id exactly when the spans have the same
    64-bit trace identifier. *)
Theorem traceOf_trace_id_injective (r1 r2 : Recorder) (sp1 sp2 : RawSpan) :
  0 ≤ TraceID (Context sp1) < 2 ^ 64 →
  0 ≤ TraceID (Context sp2) < 2 ^ 64 →
  TraceId (traceOf r1 sp1) = TraceId (traceOf r2 sp2)
  ↔ TraceID (Context sp1) = TraceID (Context sp2).
Proof.
  intros H1 H2. simpl. split; [|by intros ->].
  destruct (Sprintf_016x_spec _ H1) as (Hlen1 & Hval1 & _).
  destruct (Sprintf_016x_spec _ H2) as (Hlen2 & Hval2 & _).
  intros Heq. apply string_app_inj_length in Heq; [|congruence].
  rewrite Heq in Hval1. congruence.
Qed.

End RecordSpanMore.

(** ** Options and construction, continued *)

(** X14.  Options are applied in order and each sets one field only: the
    last [WithProject], [WithLogger] or [WithJWTCredentials] decides its
    field and leaves the other two as the options before it made them. *)
Theorem applyOptions_last_wins (opts : list Option) :
  (∀ pid,
     applyOptions (opts ++ [WithProject pid])
     = {| opt_log := opt_log (applyOptions opts);
          projectID := pid;
          credentials := credentials (applyOptions opts) |})
  ∧ (∀ logger,
       applyOptions (opts ++ [WithLogger logger])
       = {| opt_log := Some logger;
            projectID := projectID (applyOptions opts);
            credentials := credentials (applyOptions opts) |})
  ∧ (∀ creds,
       applyOptions (opts ++ [WithJWTCredentials creds])
       = {| opt_log := opt_log (applyOptions opts);
            projectID := projectID (applyOptions opts);
            credentials := creds |}).
Proof.
  unfold applyOptions. repeat split; intros; by rewrite foldl_snoc.
Qed.

Lemma applyOptions_project_empty (opts : list Option) :
  Forall leavesProjectEmpty opts → projectID (applyOptions opts) = "".
Proof.
  unfold applyOptions.
  induction opts as [|o opts IH] using rev_ind; intros Hall; [done|].
  apply Forall_app in Hall as [Hall Ho]. apply Forall_inv in Ho.
  rewrite foldl_snoc. unfold leavesProjectEmpty in Ho.
  destruct Ho as [[l ->]|[[c ->]| ->]]; simpl; auto.
Qed.

Section NewRecorderMore.
Variable world : Collaborators.

(** X15.  The project identifier is required: whatever loggers and
    credentials the options give, without a [WithProject] of a non-empty
    identifier [NewRecorder] returns [ErrInvalidProjectID] and no
    recorder. *)
Theorem NewRecorder_requires_project (c : GoContext) (opts : list Option) :
  Forall leavesProjectEmpty opts →
  NewRecorder world c opts = Err ErrInvalidProjectID.
Proof.
  intros Hall. unfold NewRecorder, Valid.
  by rewrite applyOptions_project_empty.
Qed.

(** X16.  A recorder returned by [NewRecorder] has a non-empty project,
    the one the options gave, the caller's context, the client that the
    constructor built from the options' credentials unchanged, the logger
    of the options or the default logger when none was given, and the
    bundler with the fixed thresholds. *)
Theorem NewRecorder_recorder (c : GoContext) (opts : list Option) (rec : Recorder) :
  NewRecorder world c opts = Ok rec →
  project rec ≠ ""
  ∧ project rec = projectID (applyOptions opts)
  ∧ ctx rec = c
  ∧ cloudtrace_New world (jwtConfig (applyOptions opts)) = Ok (traceClient rec)
  ∧ conf_Email (jwtConfig (applyOptions opts)) = Email (credentials (applyOptions opts))
  ∧ conf_PrivateKey (jwtConfig (applyOptions opts))
    = PrivateKey (credentials (applyOptions opts))
  ∧ conf_PrivateKeyID (jwtConfig (applyOptions opts))
    = PrivateKeyID (credentials (applyOptions opts))
  ∧ log rec = default defaultLogger (opt_log (applyOptions opts))
  ∧ bundler rec = newBundler.
Proof.
  unfold NewRecorder, Valid.
  destruct (decide (projectID (applyOptions opts) = "")) as [|Hne]; [done|].
  destruct (cloudtrace_New world _) as [client|e] eqn:Hnew; [|done].
  intros [= <-]. simpl. by destruct (opt_log (applyOptions opts)).
Qed.

(** X17.  An error of the client constructor is returned as it is, and no
    recorder with it. *)
Theorem NewRecorder_client_error (c : GoContext) (opts : list Option) (e : error) :
  projectID (applyOptions opts) ≠ "" →
  cloudtrace_New world (jwtConfig (applyOptions opts)) = Err e →
  NewRecorder world c opts = Err e.
Proof.
  intros Hne Hnew. unfold NewRecorder, Valid.
  rewrite decide_False by done. by rewrite Hnew.
Qed.

End NewRecorderMore.

(** ** The labels of a record *)

Lemma transposeLabels_known_key (labels : gmap string string)
    (k t v : string) :
  labelMap !! k = Some t →
  labels !! k = Some v →
  transposeLabels labels !! t = Some v ∧ transposeLabels labels !! k = None.
Proof.
  intros Hkt Hk. apply transposeLabels_in_moved; [|by apply elem_of_map_to_list|done].
  apply labelMap_disjoint.
Qed.

Lemma eventKey_head (j : nat) : ∃ rest, eventKey j = String "e"%char rest.
Proof. by eexists. Qed.

Lemma labelMap_names_not_events (k t : string) (j : nat) :
  labelMap !! k = Some t → k ≠ eventKey j ∧ t ≠ eventKey j.
Proof.
  intros Hkt. apply elem_of_map_to_list in Hkt.
  rewrite labelMap_to_list in Hkt.
  destruct (eventKey_head j) as [rest ->].
  unfold labelMap_entries in Hkt.
  repeat (apply elem_of_cons in Hkt as [[= -> ->]|Hkt]; [by split|]).
  by apply elem_of_nil in Hkt.
Qed.

Section RecordLabels.
Context `{TimePkg}.

(** X18.  From tag to label: a well-known tag of the rewrite table whose
    value is a string or an [int] reaches the record under its Cloud Trace
    name, with the string itself or the base-10 text, and the record has no
    label under the tag's own name; log records do not interfere. *)
Theorem recordLabels_known_tag (r : Recorder) (sp : RawSpan) (k t s : string)
    (v : Value) :
  labelMap !! k = Some t →
  Tags sp !! k = Some v →
  converted v = Some s →
  ts_Labels <$> Spans (traceOf r sp) = [recordLabels sp]
  ∧ recordLabels sp !! t = Some s
  ∧ recordLabels sp !! k = None.
Proof.
  intros Hkt Hk Hv. split; [done|].
  unfold recordLabels.
  rewrite !addLogs_untouched
    by (intros j _; by apply (labelMap_names_not_events k t j)).
  apply transposeLabels_known_key; [done|].
  by rewrite convertTags_lookup, Hk.
Qed.

(** X19.  A tag that the rewrite table does not name, neither as a tag
    name nor as a Cloud Trace name, and that is not named like a log label,
    reaches the record under its own key when it is a string or an [int]
    and leaves no label otherwise. *)
Theorem recordLabels_custom_tag (sp : RawSpan) (x : string) :
  labelMap !! x = None →
  (∀ k, labelMap !! k ≠ Some x) →
  (∀ j, (j < length (Logs sp))%nat → x ≠ eventKey j) →
  recordLabels sp !! x = Tags sp !! x ≫= converted.
Proof.
  intros Hsrc Hdst Hev. unfold recordLabels.
  rewrite addLogs_untouched by done.
  rewrite <- convertTags_lookup.
  apply transposeLabels_in_other.
  - intros [[k t] [-> Hin]]%list_elem_of_fmap. simpl in *.
    apply elem_of_map_to_list in Hin. congruence.
  - intros [[k t] [-> Hin]]%list_elem_of_fmap. simpl in *.
    apply elem_of_map_to_list in Hin. by apply (Hdst k).
Qed.

End RecordLabels.

(** ** The further statements at sample inputs *)

Lemma labelMap_no_custom_name (k : string) : labelMap !! k ≠ Some "custom".
Proof.
  intros Hk. apply elem_of_map_to_list in Hk. rewrite labelMap_to_list in Hk.
  unfold labelMap_entries in Hk.
  repeat (apply elem_of_cons in Hk as [Heq|Hk]; [by inversion Heq|]).
  by apply elem_of_nil in Hk.
Qed.

Lemma labelMap_no_component_name (k : string) : labelMap !! k ≠ Some "component".
Proof.
  intros Hk. apply elem_of_map_to_list in Hk. rewrite labelMap_to_list in Hk.
  unfold labelMap_entries in Hk.
  repeat (apply elem_of_cons in Hk as [Heq|Hk]; [by inversion Heq|]).
  by apply elem_of_nil in Hk.
Qed.

Lemma transposeLabels_keeps_other_labels_witness :
  transposeLabels_in labelMap_entries nativeLabels !! "custom" = Some "b".
Proof.
  rewrite (transposeLabels_keeps_other_labels labelMap_entries nativeLabels "custom").
  - by vm_compute.
  - symmetry. apply labelMap_to_list.
  - by vm_compute.
  - apply labelMap_no_custom_name.
Defined.

Lemma transposeLabels_keeps_native_label_witness :
  transposeLabels_in labelMap_entries nativeLabels
    !! "trace.cloud.google.com/http/host" = Some "native".
Proof.
  rewrite (transposeLabels_keeps_native_label labelMap_entries nativeLabels
             "peer.hostname" "trace.cloud.google.com/http/host").
  - by vm_compute.
  - symmetry. apply labelMap_to_list.
  - by vm_compute.
  - by vm_compute.
Defined.

Lemma transposeLabels_idempotent_witness :
  transposeLabels_in labelMap_entries (convertTags hostTags) !! "peer.hostname" = None
  ∧ transposeLabels_in (reverse labelMap_entries)
      (transposeLabels_in labelMap_entries (convertTags hostTags))
    = transposeLabels_in labelMap_entries (convertTags hostTags).
Proof.
  destruct (transposeLabels_idempotent labelMap_entries (reverse labelMap_entries)
              (convertTags hostTags)) as [Hgone Hsame].
  - symmetry. apply labelMap_to_list.
  - rewrite reverse_Permutation. symmetry. apply labelMap_to_list.
  - split; [|exact Hsame]. apply Hgone.
    exists "trace.cloud.google.com/http/host". by vm_compute.
Defined.

Lemma convertTags_keys_from_tags_witness : convertTags ∅ = ∅.
Proof. by apply (convertTags_keys_from_tags ∅). Defined.

Lemma convertSpanKind_cases_witness :
  convertSpanKind (Tags httpSpan) = "RPC_SERVER"
  ∧ convertSpanKind {[ "span.kind" := VString "server" ]} = "SPAN_KIND_UNSPECIFIED".
Proof.
  split.
  - by apply (convertSpanKind_cases (Tags httpSpan)).
  - by apply (convertSpanKind_cases {[ "span.kind" := VString "server" ]})
      with (s := "server").
Defined.

Lemma addLogs_keeps_other_labels_witness :
  addLogs (H := counterClock) {[ "event_2" := "kept"; "custom" := "b" ]}
    (Logs httpSpan) !! "event_2" = Some "kept".
Proof.
  rewrite addLogs_keeps_other_labels; [by vm_compute|].
  intros j Hj Heq. simpl in Hj.
  change "event_2" with (eventKey 2) in Heq. apply (inj eventKey) in Heq. lia.
Defined.

Lemma addLogs_one_label_per_record_witness :
  size (addLogs (H := counterClock) {[ "custom" := "b" ]} (Logs httpSpan)) = 3%nat.
Proof.
  destruct (addLogs_one_label_per_record (H := counterClock)
              {[ "custom" := "b" ]} (Logs httpSpan)) as (_ & Hsize & _).
  rewrite Hsize; [by vm_compute|].
  intros j Hj. simpl in Hj.
  destruct j as [|[|j]]; [by vm_compute|by vm_compute|lia].
Defined.

Lemma logValue_every_field_spaced_witness :
  logValue (H := counterClock) {| Timestamp := 8 : @time_Time counterClock;
                                  Fields := [] |} = "8".
Proof.
  by apply (logValue_every_field_spaced (H := counterClock)
              {| Timestamp := 8 : @time_Time counterClock; Fields := [] |}).
Defined.

Example logValue_httpSpan :
  logValue (H := counterClock) <$> Logs httpSpan = ["7a=1 b=true "; "8"].
Proof. by vm_compute. Qed.

Lemma RecordSpan_enqueued_witness :
  RecordSpan (H := counterClock) quietWorld sampleRecorder (sampleSpan true) []
  = (tt, [ EvAdd newBundler sampleTrace 2 ]).
Proof.
  apply (RecordSpan_enqueued (H := counterClock) quietWorld sampleRecorder
           (sampleSpan true) []); reflexivity.
Defined.

Example bundleHandler_down :
  bundleHandler downWorld sampleRecorder [sampleTrace; sampleTrace] []
  = (tt,
     [ EvPatchTraces (traceClient sampleRecorder) "my-project"
         [sampleTrace; sampleTrace];
       EvErrorf defaultLogger
         "failed to upload 2 traces to the Cloud Trace server. (err = unavailable)" ]).
Proof. by vm_compute. Qed.

Lemma traceOf_trace_id_injective_witness :
  TraceId (traceOf sampleRecorder (spanWithTrace 1))
  ≠ TraceId (traceOf sampleRecorder (spanWithTrace 2)).
Proof.
  intros Heq.
  apply (traceOf_trace_id_injective (H := counterClock) sampleRecorder sampleRecorder
           (spanWithTrace 1) (spanWithTrace 2)) in Heq; [done|simpl; lia..].
Defined.

Lemma NewRecorder_requires_project_witness :
  NewRecorder quietWorld (ctxHandle 0) noProjectOptions = Err ErrInvalidProjectID.
Proof.
  apply NewRecorder_requires_project. unfold noProjectOptions, leavesProjectEmpty.
  repeat apply Forall_cons_2; [eauto..|apply Forall_nil_2].
Defined.

Lemma NewRecorder_recorder_witness :
  ∃ rec, NewRecorder quietWorld (ctxHandle 0) projectOnly = Ok rec
         ∧ project rec = "my-project"
         ∧ log rec = defaultLogger
         ∧ bundler rec = newBundler.
Proof.
  destruct (NewRecorder quietWorld (ctxHandle 0) projectOnly) as [rec|e] eqn:Hnew;
    [|by vm_compute in Hnew].
  exists rec. split; [done|].
  destruct (NewRecorder_recorder quietWorld (ctxHandle 0) projectOnly rec Hnew)
    as (_ & Hproj & _ & _ & _ & _ & _ & Hlog & Hbundler).
  by rewrite Hproj, Hlog, Hbundler.
Defined.

Lemma NewRecorder_client_error_witness :
  NewRecorder noClientWorld (ctxHandle 0) projectOnly = Err (errorString "no client").
Proof. by apply NewRecorder_client_error. Defined.

Lemma recordLabels_known_tag_witness :
  recordLabels httpSpan !! "trace.cloud.google.com/http/status_code" = Some "200"
  ∧ recordLabels httpSpan !! "http.status_code" = None.
Proof.
  apply (recordLabels_known_tag (H := counterClock) sampleRecorder httpSpan
           "http.status_code" "trace.cloud.google.com/http/status_code" "200"
           (VInt 200)); by vm_compute.
Defined.

Lemma recordLabels_custom_tag_witness :
  recordLabels httpSpan !! "component" = Some "api".
Proof.
  rewrite (recordLabels_custom_tag (H := counterClock) httpSpan "component").
  - by vm_compute.
  - by vm_compute.
  - apply labelMap_no_component_name.
  - intros j Hj Heq. destruct (eventKey_head j) as [rest Hrest].
    rewrite Hrest in Heq. discriminate.
Defined.

Example recordLabels_httpSpan :
  map_to_list (recordLabels httpSpan)
  ≡ₚ [ ("trace.cloud.google.com/http/method", "GET");
       ("trace.cloud.google.com/http/status_code", "200");
       ("component", "api");
       ("event_0", "7a=1 b=true ");
       ("event_1", "8") ].
Proof. apply (bool_decide_unpack _). by vm_compute. Qed.
